(** * mona: a parser-combinator engine

    A shallow embedding of [src/mona.js]: the parser state, source positions,
    parse errors, the internals [copy], [attr] and [mergeErrors], the
    primitive parsers [value], [fail], [token] and [eof], the combinators
    [bind], [and] and [or], and the entry point [parse].

    How the JavaScript of the source is read:
    - the objects built by the constructors [SourcePosition], [ParseError]
      and [ParserState] are records (their properties carry the prefixes
      [sp_], [pe_] and [ps_], since [value] also names a parser);
    - a property or argument that may be [undefined] is an [option];
    - the input is a string and its units are the characters of the string;
      line and column numbers are integers;
    - a call that may throw returns a [Completion];
    - a parser is a function from states to completions of states, and the
      continuation of [bind] is a function from values to parsers;
    - a function passed as data (the argument of [value]) is a reference
      into a table of pure functions. *)

From Stdlib Require Import ZArith List String Ascii Bool Lia.
Import ListNotations.
Local Open Scope string_scope.
Local Open Scope Z_scope.

Module Mona.

(** ** JavaScript values

    The [value] and [userState] properties of a parser state hold arbitrary
    values.  A function value is a reference into a table of functions
    (the table is a parameter of the engine, see [Section Engine]). *)

Definition FunId := nat.

#[warnings="-register-all"]
Inductive JsVal : Type :=
| JUndefined
| JNull
| JBool (b : bool)
| JNum (n : Z)
| JStr (s : string)
| JArr (items : list JsVal)
| JFun (f : FunId).

(** [typeof v === "function"]. *)
Definition isFunction (v : JsVal) : bool :=
  match v with
  | JFun _ => true
  | _ => false
  end.

(** Truthiness of a value, as tested by [if], [!], [&&] and [||]. *)
Definition truthy (v : JsVal) : bool :=
  match v with
  | JUndefined | JNull => false
  | JBool b => b
  | JNum n => negb (n =? 0)
  | JStr s => negb (String.eqb s "")
  | JArr _ | JFun _ => true
  end.

(** [s || d] for an optional string argument: [undefined] and the empty
    string are falsy. *)
Definition strOr (s : option string) (d : string) : string :=
  match s with
  | Some (String c r) => String c r
  | _ => d
  end.

(** [n || d] for an optional number argument: [undefined] and [0] are
    falsy. *)
Definition numOr (n : option Z) (d : Z) : Z :=
  match n with
  | Some 0 | None => d
  | Some k => k
  end.

(** ** The three object types of the source *)

(** [function SourcePosition(name, line, column)]. *)
Record SourcePosition : Type := mkSourcePosition {
  sp_name : option string;
  sp_line : Z;
  sp_column : Z
}.

Definition newSourcePosition (name : option string) (line column : option Z)
  : SourcePosition :=
  {| sp_name := name; sp_line := numOr line 1; sp_column := numOr column 1 |}.

(** [function ParseError(pos, messages, type)].  The position and the type
    are [undefined] when the constructor is called without them. *)
Record ParseError : Type := mkParseError {
  pe_position : option SourcePosition;
  pe_messages : list string;
  pe_type : option string
}.

Definition newParseError (pos : option SourcePosition) (messages : list string)
    (type : option string) : ParseError :=
  {| pe_position := pos; pe_messages := messages; pe_type := type |}.

(** Reading [err.pos]: the constructor stores the position under the name
    [position], so an error object has no property [pos] and the read gives
    [undefined]. *)
Definition pe_pos (err : ParseError) : option SourcePosition := None.

(** [function ParserState(value, restOfInput, userState, position,
    hasConsumed, error)]; the constructor does not store [hasConsumed]. *)
Record ParserState : Type := mkParserState {
  ps_value : JsVal;
  ps_restOfInput : string;
  ps_position : SourcePosition;
  ps_userState : JsVal;
  ps_error : option ParseError
}.

Definition newParserState (value : JsVal) (restOfInput : string)
    (userState : JsVal) (position : SourcePosition) (hasConsumed : bool)
    (error : option ParseError) : ParserState :=
  {| ps_value := value; ps_restOfInput := restOfInput;
     ps_position := position; ps_userState := userState;
     ps_error := error |}.

(** ** Completions: a call returns normally or throws *)

Inductive Exn : Type :=
| TypeError
| Thrown (err : ParseError).

Inductive Completion (A : Type) : Type :=
| Normal (a : A)
| Abrupt (x : Exn).

Arguments Normal {A} a.
Arguments Abrupt {A} x.

Definition andThen {A B : Type} (c : Completion A) (k : A -> Completion B)
  : Completion B :=
  match c with
  | Normal a => k a
  | Abrupt x => Abrupt x
  end.

Notation "x <- c ;; k" := (andThen c (fun x => k))
  (at level 61, c at next level, right associativity).

(** A parser, as the callback type of the source documents it: a function
    from a parser state to a parser state. *)
Definition Parser : Type := ParserState -> Completion ParserState.

(** What a call written as a parser application can hand back: [eof] has a
    branch that returns a parser instead of a state. *)
Inductive Returned : Type :=
| RState (state : ParserState)
| RParser (parser : Parser).

(** ** Internals: [copy], [attr], [mergeErrors] *)

(** [copy(obj)]: a new object with the prototype and the own properties of
    [obj]. *)
Definition copyPosition (obj : SourcePosition) : SourcePosition :=
  {| sp_name := sp_name obj; sp_line := sp_line obj;
     sp_column := sp_column obj |}.

Definition copy (obj : ParserState) : ParserState :=
  {| ps_value := ps_value obj; ps_restOfInput := ps_restOfInput obj;
     ps_position := ps_position obj; ps_userState := ps_userState obj;
     ps_error := ps_error obj |}.

(** The property names [attr] is called with, each with its reader and its
    writer. *)
Record Field (T : Type) : Type := mkField {
  readField : ParserState -> T;
  writeField : ParserState -> T -> ParserState
}.

Arguments readField {T} _ _.
Arguments writeField {T} _ _ _.

Definition valueField : Field JsVal :=
  {| readField := ps_value;
     writeField := fun obj v =>
       mkParserState v (ps_restOfInput obj) (ps_position obj)
                     (ps_userState obj) (ps_error obj) |}.

Definition errorField : Field (option ParseError) :=
  {| readField := ps_error;
     writeField := fun obj e =>
       mkParserState (ps_value obj) (ps_restOfInput obj) (ps_position obj)
                     (ps_userState obj) e |}.

(** The third argument of [attr], after its [typeof arg === "function"]
    test. *)
Inductive Arg (T : Type) : Type :=
| ArgPlain (v : T)
| ArgFunction (f : T -> Completion T).

Arguments ArgPlain {T} v.
Arguments ArgFunction {T} f.

(** [attr(obj, name, arg)], the three-argument form (the only one the
    source calls). *)
Definition attr {T : Type} (obj : ParserState) (name : Field T) (arg : Arg T)
  : Completion ParserState :=
  let newObj := copy obj in
  match arg with
  | ArgFunction f =>
      v <- f (readField name obj) ;;
      Normal (writeField name newObj v)
  | ArgPlain v => Normal (writeField name newObj v)
  end.

(** Reading [err.messages]: a [TypeError] when [err] is [undefined]. *)
Definition messagesOf (err : option ParseError) : Completion (list string) :=
  match err with
  | Some e => Normal (pe_messages e)
  | None => Abrupt TypeError
  end.

(** [xs.length] as a condition. *)
Definition hasLength {A : Type} (xs : list A) : bool :=
  match xs with
  | [] => false
  | _ :: _ => true
  end.

Definition mergeErrors (err1 err2 : option ParseError)
  : Completion (option ParseError) :=
  (* !err1 || (!err1.messages.length && err2.messages.length) *)
  c1 <- match err1 with
        | None => Normal true
        | Some e1 =>
            if negb (hasLength (pe_messages e1))
            then m2 <- messagesOf err2 ;; Normal (hasLength m2)
            else Normal false
        end ;;
  if c1 then Normal err2
  else
    (* !err2 || (!err2.messages.length && err1.messages.length) *)
    c2 <- match err2 with
          | None => Normal true
          | Some e2 =>
              if negb (hasLength (pe_messages e2))
              then m1 <- messagesOf err1 ;; Normal (hasLength m1)
              else Normal false
          end ;;
    if c2 then Normal err1
    else
      match err1, err2 with
      | Some e1, Some e2 =>
          Normal (Some (newParseError (pe_pos e1)
                          (pe_messages e1 ++ pe_messages e2) None))
      | _, _ => Abrupt TypeError
      end.

(** ** The engine *)

Section Engine.

(** The behaviour of the function values a caller may pass as data: the
    function with reference [f] maps its argument [v] to [funs f v]. *)
Variable funs : FunId -> JsVal -> JsVal.

(** A value used as the third argument of [attr]. *)
Definition asArg (v : JsVal) : Arg JsVal :=
  match v with
  | JFun f => ArgFunction (fun old => Normal (funs f old))
  | _ => ArgPlain v
  end.

Definition value (val : JsVal) : Parser :=
  fun parserState => attr parserState valueField (asArg val).

Definition bind (parser : Parser) (f : JsVal -> Parser) : Parser :=
  fun parserState =>
    newParserState <- parser parserState ;;
    f (ps_value newParserState) newParserState.

Definition fail (msg type : option string) : Parser :=
  let msg := strOr msg "parser error" in
  let type := strOr type "failure" in
  fun parserState =>
    attr parserState errorField (ArgFunction (fun oldErr =>
      mergeErrors oldErr
        (Some (newParseError (Some (ps_position parserState)) [msg]
                             (Some type))))).

(** The newline character of ["\n"]. *)
Definition newline : ascii := "010"%char.

Definition token : Parser :=
  fun parserState =>
    match ps_restOfInput parserState with
    | String c rest =>
        let newParserState := copy parserState in
        let newPosition := copyPosition (ps_position parserState) in
        let newPosition :=
          if Ascii.eqb c newline
          then mkSourcePosition (sp_name newPosition)
                                (sp_line newPosition + 1) 1
          else mkSourcePosition (sp_name newPosition)
                                (sp_line newPosition)
                                (sp_column newPosition + 1) in
        Normal (mkParserState (JStr (String c EmptyString)) rest newPosition
                              (ps_userState newParserState)
                              (ps_error newParserState))
    | EmptyString => fail (Some "unexpected eof") (Some "eof") parserState
    end.

Definition eof : ParserState -> Completion Returned :=
  fun parserState =>
    match ps_restOfInput parserState with
    | EmptyString =>
        s <- attr parserState valueField (ArgPlain (JBool true)) ;;
        Normal (RState s)
    | String _ _ =>
        Normal (RParser (fail (Some "expected an eof") (Some "expectation")))
    end.

Fixpoint and (firstParser : Parser) (moreParsers : list Parser) : Parser :=
  bind firstParser (fun result =>
    match moreParsers with
    | p :: ps => and p ps
    | [] => value result
    end).

(** [orHelper] receives the alternatives as its argument list; calling the
    absent [parsers[0]] of an empty list is a [TypeError]. *)
Fixpoint orHelper (parsers : list Parser) (parserState : ParserState)
  : Completion ParserState :=
  match parsers with
  | [] => Abrupt TypeError
  | p0 :: rest =>
      res <- p0 parserState ;;
      match ps_error res, rest with
      | Some _, _ :: _ => orHelper rest parserState
      | _, _ => Normal res
      end
  end.

Definition or (parsers : list Parser) : Parser := orHelper parsers.

(** The options object of [parse]; a property left out reads as
    [undefined]. *)
Record Options : Type := mkOptions {
  throwOnError : JsVal;
  fileName : option string;
  userState : JsVal
}.

(** What [parse] returns when it returns: the error object or the value. *)
Inductive ParseResult : Type :=
| ResultError (err : ParseError)
| ResultValue (v : JsVal).

Definition parse (parser : Parser) (str : string) (opts : option Options)
  : Completion ParseResult :=
  let opts :=
    match opts with
    | Some o => o
    | None => mkOptions (JBool true) None JUndefined
    end in
  parseState <- parser (newParserState JUndefined str (userState opts)
                          (newSourcePosition (fileName opts) None None)
                          false None) ;;
  match ps_error parseState with
  | Some err =>
      if truthy (throwOnError opts) then Abrupt (Thrown err)
      else Normal (ResultError err)
  | None => Normal (ResultValue (ps_value parseState))
  end.

End Engine.

(** ** Outcomes of running a parser

    A parser fails when the state it returns carries an error, and succeeds
    when the state it returns carries none ([state.error] as a condition). *)

Definition hasError (state : ParserState) : bool :=
  match ps_error state with
  | Some _ => true
  | None => false
  end.

Definition failed (c : Completion ParserState) : bool :=
  match c with
  | Normal state => hasError state
  | Abrupt _ => false
  end.

Definition succeeded (c : Completion ParserState) : bool :=
  match c with
  | Normal state => negb (hasError state)
  | Abrupt _ => false
  end.

(** Reading [.error] of what a call handed back: a state has the property;
    a parser is a function object, which has no such property, so the read
    gives [undefined]. *)
Definition returnedError (r : Returned) : option ParseError :=
  match r with
  | RState state => ps_error state
  | RParser _ => None
  end.

(** [err] is [undefined] or an error without messages. *)
Definition noMessages (err : option ParseError) : bool :=
  match err with
  | Some e => negb (hasLength (pe_messages e))
  | None => true
  end.

(** ** Sample inputs *)

(** The state [parse] starts a parser on when it is given no options. *)
Definition startState (input : string) : ParserState :=
  newParserState JUndefined input JUndefined
                 (newSourcePosition None None None) false None.

(** The error [fail("nop")] produces on [startState]. *)
Definition nopError : ParseError :=
  newParseError (Some (newSourcePosition None None None)) ["nop"]
                (Some "failure").

(** [startState input] after [fail("nop")] has run on it. *)
Definition failedState (input : string) : ParserState :=
  mkParserState JUndefined input (newSourcePosition None None None)
                JUndefined (Some nopError).

(** The error [token()] produces at the end of the input of [startState]. *)
Definition eofError : ParseError :=
  newParseError (Some (newSourcePosition None None None)) ["unexpected eof"]
                (Some "eof").

(** [fail("nop")]. *)
Definition nopParser : Parser := fail (Some "nop") None.

(** [bind(token(), function () { return fail("nope"); })]: consumes one
    unit, then fails. *)
Definition consumeThenFail : Parser :=
  bind token (fun _ => fail (Some "nope") None).

(** [fail("a")] and [fail("b")], two alternatives that both fail. *)
Definition failA : Parser := fail (Some "a") None.
Definition failB : Parser := fail (Some "b") None.

(** An options object that sets [fileName] only. *)
Definition fileNameOnly : Options :=
  mkOptions JUndefined (Some "f.txt") JUndefined.

(** A table of function values: function [0] ignores its argument and
    returns the string ["called"], every other function returns its
    argument. *)
Definition sampleFuns : FunId -> JsVal -> JsVal :=
  fun f v =>
    match f with
    | O => JStr "called"
    | S _ => v
    end.

(** [function () { return value("seen"); }], a continuation for [bind]. *)
Definition seenContinuation : JsVal -> Parser :=
  fun _ => value sampleFuns (JStr "seen").

(** ** The other combinators *)

Section Combinators.

Variable funs : FunId -> JsVal -> JsVal.

(** [maybe(parser)]: [or(parser, value())]; the missing argument of
    [value] is [undefined]. *)
Definition maybe (parser : Parser) : Parser :=
  or [parser; value funs JUndefined].

Definition not (parser : Parser) : Parser :=
  fun parserState =>
    res <- parser parserState ;;
    if hasError res
    then value funs (JBool true) parserState
    else fail (Some "expected parser to fail") None parserState.

(** [and.apply(null, parsers)]: with an empty list the first parser of
    [and] is [undefined], and running the parser [and] returns calls it. *)
Definition andApply (parsers : list Parser) : Parser :=
  match parsers with
  | p :: ps => and funs p ps
  | [] => fun _ => Abrupt TypeError
  end.

Definition unless (parser : Parser) (moreParsers : list Parser) : Parser :=
  andApply (not parser :: moreParsers).

(** The callback of [sequence]: a function of [s] that calls [s(parser)]
    some number of times, goes on with the value each call returns, and
    ends by returning a parser. *)
Inductive Builder : Type :=
| Return (parser : Parser)
| Step (parser : Parser) (next : JsVal -> Builder).

(** Running the callback on the state [sequence] threads through the calls
    of [s].  A step whose state carries an error throws [failwhale], which
    [sequence] catches to return that state; any other exception goes
    through. *)
Fixpoint runBuilder (b : Builder) (state : ParserState)
  : Completion ParserState :=
  match b with
  | Return parser => parser state
  | Step parser next =>
      state' <- parser state ;;
      if hasError state' then Normal state'
      else runBuilder (next (ps_value state')) state'
  end.

Definition sequence (f : Builder) : Parser :=
  fun parserState => runBuilder f parserState.

Definition followedBy (parser : Parser) (parsers : list Parser) : Parser :=
  bind parser (fun result =>
    bind (andApply parsers) (fun _ => value funs result)).

(** The loop of [zeroOrMore].  [fuel] bounds the number of times the loop
    condition is evaluated; [None] means the bound was reached with the
    loop still running. *)
Fixpoint zeroOrMoreLoop (fuel : nat) (parser : Parser)
    (prev s : ParserState) (res : list JsVal)
  : option (Completion ParserState) :=
  match fuel with
  | O => None
  | S fuel' =>
      match parser s with
      | Abrupt x => Some (Abrupt x)
      | Normal s' =>
          if hasError s' then Some (value funs (JArr res) prev)
          else zeroOrMoreLoop fuel' parser s' s' (res ++ [ps_value s'])
      end
  end.

Definition zeroOrMore (fuel : nat) (parser : Parser)
  : ParserState -> option (Completion ParserState) :=
  fun parserState => zeroOrMoreLoop fuel parser parserState parserState [].

(** [predicate] gives the truthiness of what the callback returns. *)
Definition satisfies (predicate : JsVal -> bool) : Parser :=
  bind token (fun c =>
    if predicate c then value funs c
    else fail (Some "token does not match predicate") None).

(** [x === y] for a string [x]. *)
Definition strictEqualsString (x : string) (y : JsVal) : bool :=
  match y with
  | JStr s => String.eqb x s
  | _ => false
  end.

Definition character (x : string) : Parser :=
  satisfies (fun y => strictEqualsString x y).

End Combinators.

Module Strings.

Section WithFunctions.

Variable funs : FunId -> JsVal -> JsVal.

(** [string(str)]; [str[0]] is the one-unit string of the first unit and
    [str.substr(1)] the rest. *)
Fixpoint string (str : String.string) : Parser :=
  match str with
  | EmptyString => value funs (JStr EmptyString)
  | String c rest =>
      sequence
        (Step (character funs (String c EmptyString)) (fun _ =>
         Step (string rest) (fun _ =>
         Return (value funs (JStr str)))))
  end.

End WithFunctions.

End Strings.

(** ** Notions used to state properties *)

(** The messages collected on a state: those of its error, none when it
    has no error. *)
Definition collected (state : ParserState) : list string :=
  match ps_error state with
  | Some e => pe_messages e
  | None => []
  end.

(** A parser keeps failures when, run on a state that carries an error, it
    returns a state that carries one. *)
Definition keepsFailure (p : Parser) : Prop :=
  forall s, hasError s = true -> failed (p s) = true.

(** The number of newline units of a string. *)
Fixpoint newlines (w : string) : Z :=
  match w with
  | EmptyString => 0
  | String c rest => (if Ascii.eqb c newline then 1 else 0) + newlines rest
  end.

(** The units of a string, each as a one-unit string value. *)
Fixpoint units (w : string) : list JsVal :=
  match w with
  | EmptyString => []
  | String c rest => JStr (String c EmptyString) :: units rest
  end.

(** * Properties *)

(** ** Internals *)

Lemma copy_same (obj : ParserState) : copy obj = obj.
Proof. destruct obj; reflexivity. Qed.

Lemma copyPosition_same (obj : SourcePosition) : copyPosition obj = obj.
Proof. destruct obj; reflexivity. Qed.

(** [attr] with a plain argument writes it into a copy. *)
Lemma attr_plain {T : Type} (obj : ParserState) (name : Field T) (v : T) :
  attr obj name (ArgPlain v) = Normal (writeField name obj v).
Proof. unfold attr. rewrite copy_same. reflexivity. Qed.

(** [attr] with a function argument writes the function's result, computed
    from the old property. *)
Lemma attr_function {T : Type} (obj : ParserState) (name : Field T)
    (f : T -> Completion T) :
  attr obj name (ArgFunction f) =
  (v <- f (readField name obj) ;; Normal (writeField name obj v)).
Proof. unfold attr. rewrite copy_same. reflexivity. Qed.

(** Merging with a new error that is present never throws and never gives
    [undefined]. *)
Lemma mergeErrors_present (err1 : option ParseError) (e2 : ParseError) :
  exists merged, mergeErrors err1 (Some e2) = Normal (Some merged).
Proof.
  destruct err1 as [[p1 m1 t1]|]; destruct e2 as [p2 m2 t2];
    [| eexists; reflexivity ].
  destruct m1, m2; cbn; eexists; reflexivity.
Qed.

(** ** The primitive parsers, equation by equation *)

Lemma value_plain funs (v : JsVal) (s : ParserState) :
  isFunction v = false ->
  value funs v s =
  Normal (mkParserState v (ps_restOfInput s) (ps_position s)
                        (ps_userState s) (ps_error s)).
Proof.
  intros Hv. unfold value.
  destruct v; try discriminate Hv; apply attr_plain.
Qed.

Lemma value_function funs (f : FunId) (s : ParserState) :
  value funs (JFun f) s =
  Normal (mkParserState (funs f (ps_value s)) (ps_restOfInput s)
                        (ps_position s) (ps_userState s) (ps_error s)).
Proof. unfold value, asArg. rewrite attr_function. reflexivity. Qed.

Lemma value_keeps_error funs (v : JsVal) (s : ParserState) :
  exists s', value funs v s = Normal s' /\ ps_error s' = ps_error s.
Proof.
  destruct (isFunction v) eqn:Hv.
  - destruct v; try discriminate Hv.
    eexists; split; [apply value_function | reflexivity].
  - eexists; split; [apply value_plain; exact Hv | reflexivity].
Qed.

Lemma fail_merges (msg type : option string) (s : ParserState) :
  fail msg type s =
  (merged <- mergeErrors (ps_error s)
               (Some (newParseError (Some (ps_position s))
                        [strOr msg "parser error"]
                        (Some (strOr type "failure")))) ;;
   Normal (mkParserState (ps_value s) (ps_restOfInput s) (ps_position s)
                         (ps_userState s) merged)).
Proof. unfold fail. rewrite attr_function. reflexivity. Qed.

Lemma fail_fails (msg type : option string) (s : ParserState) :
  failed (fail msg type s) = true.
Proof.
  rewrite fail_merges.
  destruct (mergeErrors_present (ps_error s)
              (newParseError (Some (ps_position s))
                 [strOr msg "parser error"] (Some (strOr type "failure"))))
    as [merged ->].
  reflexivity.
Qed.

Lemma token_consumes (s : ParserState) (c : ascii) (rest : string) :
  ps_restOfInput s = String c rest ->
  token s =
  Normal (mkParserState (JStr (String c EmptyString)) rest
            (if Ascii.eqb c newline
             then mkSourcePosition (sp_name (ps_position s))
                                   (sp_line (ps_position s) + 1) 1
             else mkSourcePosition (sp_name (ps_position s))
                                   (sp_line (ps_position s))
                                   (sp_column (ps_position s) + 1))
            (ps_userState s) (ps_error s)).
Proof.
  intros Hin. unfold token. rewrite Hin, copy_same, copyPosition_same.
  reflexivity.
Qed.

Lemma token_at_end (s : ParserState) :
  ps_restOfInput s = EmptyString ->
  token s = fail (Some "unexpected eof") (Some "eof") s.
Proof. intros Hin. unfold token. rewrite Hin. reflexivity. Qed.

(** [bind] has no test of the first parser's error: the continuation is
    applied to the value of whatever state the parser returned. *)
Lemma bind_unfold (parser : Parser) (f : JsVal -> Parser) (s : ParserState) :
  bind parser f s = (s' <- parser s ;; f (ps_value s') s').
Proof. reflexivity. Qed.

Lemma fail_on_start (input : string) :
  nopParser (startState input) = Normal (failedState input).
Proof. reflexivity. Qed.

(** A state that already carries an error reaches the parsers that follow a
    failing one: [and(fail("nop"), p)] runs [p] on [failedState input], and
    the closing [value(result)] keeps whatever [p] returned. *)
Lemma and_runs_next_parser_on_failed_state funs (p : Parser)
    (input : string) (s' : ParserState) :
  p (failedState input) = Normal s' ->
  isFunction (ps_value s') = false ->
  and funs nopParser [p] (startState input) = Normal s'.
Proof.
  intros Hrun Hval. cbn [and]. rewrite bind_unfold, fail_on_start.
  cbn [andThen]. rewrite bind_unfold, Hrun. cbn [andThen].
  rewrite (value_plain funs _ _ Hval). destruct s'; reflexivity.
Qed.

(** ** [bind] *)

(** C1.  The claim is that [bind(p, f)(s)] is [p(s)] unchanged, with [f]
    not invoked, whenever [p(s)] carries an error.  The code applies the
    continuation unconditionally: with the failing parser [fail("nop")] and
    a continuation returning [value("seen")], the continuation's parser
    runs on the failed state and replaces its value, so the result differs
    from the state the failing parser returned. *)
Theorem bind_runs_continuation_after_failure :
  failed (nopParser (startState "")) = true /\
  bind nopParser seenContinuation (startState "") =
    Normal (mkParserState (JStr "seen") "" (newSourcePosition None None None)
                          JUndefined (Some nopError)) /\
  bind nopParser seenContinuation (startState "") <>
    nopParser (startState "").
Proof.
  split; [reflexivity | split; [reflexivity | discriminate]].
Qed.

(** ** [or] *)

Lemma orHelper_last (q : Parser) (s : ParserState) : orHelper [q] s = q s.
Proof.
  cbn. destruct (q s) as [res|x]; [| reflexivity].
  cbn. destruct (ps_error res); reflexivity.
Qed.

Lemma orHelper_skips_failure (p q : Parser) (more : list Parser)
    (s : ParserState) :
  failed (p s) = true -> orHelper (p :: q :: more) s = orHelper (q :: more) s.
Proof.
  intros Hp. cbn [orHelper].
  destruct (p s) as [res|x]; [| discriminate Hp].
  cbn in Hp. unfold hasError in Hp. cbn [andThen].
  destruct (ps_error res); [reflexivity | discriminate Hp].
Qed.

(** C2.  When [p1] fails on [s], however much input its failed state has
    consumed, [or(p1, p2)(s)] is [p2] run on the original state [s]. *)
Theorem or_retries_on_original_state (p1 p2 : Parser) (s : ParserState) :
  failed (p1 s) = true -> or [p1; p2] s = p2 s.
Proof.
  intros Hp. unfold or.
  rewrite (orHelper_skips_failure p1 p2 [] s Hp).
  apply orHelper_last.
Qed.

(** The first alternative consumes ["a"] of ["ab"] before it fails; the
    second alternative still sees ["ab"]. *)
Lemma or_retries_on_original_state_witness :
  (exists s', consumeThenFail (startState "ab") = Normal s' /\
              ps_restOfInput s' = "b" /\ hasError s' = true) /\
  or [consumeThenFail; token] (startState "ab") = token (startState "ab").
Proof.
  split.
  - eexists. split; [reflexivity | split; reflexivity].
  - apply (or_retries_on_original_state consumeThenFail token
             (startState "ab")).
    reflexivity.
Defined.

(** ** [token] *)

(** C3, as stated, does not hold of a state that already carries an error:
    on [failedState "a"] the input is not empty, yet [token] does not
    succeed (it consumes the unit and keeps the error); on [failedState ""]
    the error reported is not the single message of type ["eof"]. *)
Lemma token_on_failed_state :
  ps_restOfInput (failedState "a") <> "" /\
  succeeded (token (failedState "a")) = false /\
  ps_restOfInput (failedState "") = "" /\
  ~ (exists s' e, token (failedState "") = Normal s' /\
                  ps_error s' = Some e /\
                  pe_messages e = ["unexpected eof"] /\
                  pe_type e = Some "eof").
Proof.
  split; [discriminate |].
  split; [reflexivity |].
  split; [reflexivity |].
  intros (s' & e & Hrun & Herr & Hmsg & _).
  cbv in Hrun. injection Hrun as <-. cbn in Herr. injection Herr as <-.
  discriminate Hmsg.
Qed.

(** C3, amended.  On a non-empty input [token] consumes exactly one unit,
    makes it the value, advances the position (a newline sets the column to
    1 and increments the line, any other unit increments the column and
    leaves the line), and leaves the user state and the error field as they
    were, so it succeeds when the state carries no error.  On an empty
    input, when the state carries no error or one without messages, it
    fails with messages ["unexpected eof"] and type ["eof"] at the current
    position, consuming nothing. *)
Theorem token_consumes_one_unit_or_reports_eof (s : ParserState) :
  (forall c rest, ps_restOfInput s = String c rest ->
     exists s',
       token s = Normal s' /\
       ps_value s' = JStr (String c EmptyString) /\
       ps_restOfInput s' = rest /\
       ps_userState s' = ps_userState s /\
       ps_error s' = ps_error s /\
       sp_name (ps_position s') = sp_name (ps_position s) /\
       (c = newline ->
          sp_column (ps_position s') = 1 /\
          sp_line (ps_position s') = sp_line (ps_position s) + 1) /\
       (c <> newline ->
          sp_column (ps_position s') = sp_column (ps_position s) + 1 /\
          sp_line (ps_position s') = sp_line (ps_position s)) /\
       (ps_error s = None -> succeeded (token s) = true)) /\
  (ps_restOfInput s = EmptyString -> noMessages (ps_error s) = true ->
     exists s' e,
       token s = Normal s' /\
       ps_error s' = Some e /\
       pe_messages e = ["unexpected eof"] /\
       pe_type e = Some "eof" /\
       pe_position e = Some (ps_position s) /\
       ps_restOfInput s' = EmptyString /\
       ps_position s' = ps_position s).
Proof.
  split.
  - intros c rest Hin. rewrite (token_consumes s c rest Hin).
    eexists. split; [reflexivity |]. cbn.
    do 4 (split; [reflexivity |]).
    split; [destruct (Ascii.eqb c newline); reflexivity |].
    split; [intros ->; split; reflexivity |].
    split.
    + intros Hc. apply Ascii.eqb_neq in Hc. rewrite Hc.
      split; reflexivity.
    + intros He. unfold hasError. cbn. rewrite He. reflexivity.
  - intros Hin Hno. rewrite (token_at_end s Hin), fail_merges, Hin.
    destruct (ps_error s) as [[p1 m1 t1]|]; cbn in Hno |- *.
    + destruct m1; [| discriminate Hno]. cbn.
      eexists _, _. repeat split.
    + eexists _, _. repeat split.
Qed.

Lemma token_consumes_one_unit_or_reports_eof_witness :
  (exists s',
     token (startState "ab") = Normal s' /\
     ps_value s' = JStr "a" /\ ps_restOfInput s' = "b" /\
     sp_column (ps_position s') = 2 /\ sp_line (ps_position s') = 1) /\
  (exists s' e,
     token (startState "") = Normal s' /\ ps_error s' = Some e /\
     pe_messages e = ["unexpected eof"] /\ pe_type e = Some "eof").
Proof.
  split.
  - destruct (proj1 (token_consumes_one_unit_or_reports_eof
                       (startState "ab")) "a"%char "b" eq_refl)
      as (s' & Hrun & Hval & Hrest & _ & _ & _ & _ & Hcol & _).
    exists s'. repeat split; try assumption; apply Hcol; discriminate.
  - destruct (proj2 (token_consumes_one_unit_or_reports_eof
                       (startState "")) eq_refl eq_refl)
      as (s' & e & Hrun & Herr & Hmsg & Htype & _).
    exists s', e. repeat split; assumption.
Defined.

(** ** [value] *)

(** C4, as stated, does not hold of a state whose error field is set:
    [value("v")] run on [failedState ""] returns a state that still carries
    the error, so it neither succeeds nor clears the error. *)
Lemma value_on_failed_state :
  value sampleFuns (JStr "v") (failedState "") =
    Normal (mkParserState (JStr "v") "" (newSourcePosition None None None)
                          JUndefined (Some nopError)) /\
  succeeded (value sampleFuns (JStr "v") (failedState "")) = false /\
  ~ (exists s', value sampleFuns (JStr "v") (failedState "") = Normal s' /\
                ps_error s' = None).
Proof.
  split; [reflexivity | split; [reflexivity |]].
  intros (s' & Hrun & Herr).
  cbv in Hrun. injection Hrun as <-. discriminate Herr.
Qed.

(** C4, amended.  For every value [v] that is not a function and every
    state [s], [value(v)(s)] returns a state whose value is [v] and whose
    remaining input, position, user state and error field are those of [s]:
    it succeeds exactly when [s] carries no error, and an error present on
    [s] stays. *)
Theorem value_sets_result_and_keeps_the_rest funs (v : JsVal)
    (s : ParserState) :
  isFunction v = false ->
  exists s',
    value funs v s = Normal s' /\
    ps_value s' = v /\
    ps_restOfInput s' = ps_restOfInput s /\
    ps_position s' = ps_position s /\
    ps_userState s' = ps_userState s /\
    ps_error s' = ps_error s /\
    succeeded (value funs v s) = negb (hasError s).
Proof.
  intros Hv. rewrite (value_plain funs v s Hv).
  eexists. repeat split.
Qed.

Lemma value_sets_result_and_keeps_the_rest_witness :
  exists s',
    value sampleFuns (JStr "foo") (startState "abc") = Normal s' /\
    ps_value s' = JStr "foo" /\
    ps_restOfInput s' = "abc" /\
    succeeded (value sampleFuns (JStr "foo") (startState "abc")) = true.
Proof.
  destruct (value_sets_result_and_keeps_the_rest sampleFuns (JStr "foo")
              (startState "abc") eq_refl)
    as (s' & Hrun & Hval & Hrest & _ & _ & _ & Hok).
  exists s'. repeat split; assumption.
Defined.

(** ** [eof] *)

Lemma eof_at_end (s : ParserState) :
  ps_restOfInput s = EmptyString ->
  eof s = Normal (RState (mkParserState (JBool true) EmptyString
                            (ps_position s) (ps_userState s) (ps_error s))).
Proof.
  intros Hin. unfold eof. rewrite Hin, attr_plain. cbn. rewrite Hin.
  reflexivity.
Qed.

Lemma eof_before_end (s : ParserState) (c : ascii) (rest : string) :
  ps_restOfInput s = String c rest ->
  eof s = Normal (RParser (fail (Some "expected an eof")
                                (Some "expectation"))).
Proof. intros Hin. unfold eof. rewrite Hin. reflexivity. Qed.

(** C5.  The claim is that on a non-empty input [eof()(s)] is a failing
    state with messages ["expected an eof"] and type ["expectation"].  The
    code returns the parser [fail("expected an eof", "expectation")] itself,
    not the state that parser gives on [s]: on [startState "a"] the result
    is a parser and no state at all. *)
Theorem eof_before_end_returns_a_parser :
  eof (startState "a") =
    Normal (RParser (fail (Some "expected an eof") (Some "expectation"))) /\
  (forall s', eof (startState "a") <> Normal (RState s')).
Proof.
  split; [reflexivity | intros s'; discriminate].
Qed.

(** ** [mergeErrors] *)

(** C6.  The claim is that a merge of two errors that both have messages
    keeps the type and the position of the new error.  The code builds the
    merged record as [new ParseError(err1.pos, messages)]: [err1.pos] is a
    property the constructor never sets and no type is passed, so merging
    the error of [fail("nop")] with the end-of-input error of [token()]
    (what [and(fail("nop"), token())] does on the empty input)
    concatenates the messages but leaves the result with neither type nor
    position. *)
Theorem mergeErrors_drops_type_and_position :
  mergeErrors (Some nopError) (Some eofError) =
    Normal (Some (mkParseError None ["nop"; "unexpected eof"] None)) /\
  ~ (exists merged,
       mergeErrors (Some nopError) (Some eofError) = Normal (Some merged) /\
       pe_messages merged =
         (pe_messages nopError ++ pe_messages eofError)%list /\
       pe_type merged = pe_type eofError /\
       pe_position merged = pe_position eofError).
Proof.
  split; [reflexivity |].
  intros (merged & Hrun & _ & Htype & _).
  cbv in Hrun. injection Hrun as <-. discriminate Htype.
Qed.

(** The case analysis of [mergeErrors] that does hold.  If the existing
    error is absent, or has no messages while the new error has some, the
    result is the new error; otherwise, if the existing error has messages
    and the new error is absent or has none, the result is the existing
    error; otherwise (both present, both with messages or both without) the
    result's messages are the existing error's messages followed by the new
    error's messages.  (An existing error without messages merged with an
    absent new error is outside these cases.) *)
Lemma mergeErrors_by_cases (err1 err2 : option ParseError) :
  (err1 = None -> mergeErrors err1 err2 = Normal err2) /\
  (forall e1 e2, err1 = Some e1 -> err2 = Some e2 ->
     pe_messages e1 = [] -> pe_messages e2 <> [] ->
     mergeErrors err1 err2 = Normal err2) /\
  (forall e1, err1 = Some e1 -> err2 = None -> pe_messages e1 <> [] ->
     mergeErrors err1 err2 = Normal err1) /\
  (forall e1 e2, err1 = Some e1 -> err2 = Some e2 ->
     pe_messages e1 <> [] -> pe_messages e2 = [] ->
     mergeErrors err1 err2 = Normal err1) /\
  (forall e1 e2, err1 = Some e1 -> err2 = Some e2 ->
     (pe_messages e1 <> [] /\ pe_messages e2 <> []) \/
     (pe_messages e1 = [] /\ pe_messages e2 = []) ->
     exists merged,
       mergeErrors err1 err2 = Normal (Some merged) /\
       pe_messages merged = (pe_messages e1 ++ pe_messages e2)%list).
Proof.
  split; [intros ->; reflexivity |].
  split.
  { intros [p1 m1 t1] [p2 m2 t2] -> -> H1 H2. cbn in H1, H2. subst m1.
    destruct m2; [contradiction H2; reflexivity | reflexivity]. }
  split.
  { intros [p1 m1 t1] -> -> H1. cbn in H1.
    destruct m1; [contradiction H1; reflexivity | reflexivity]. }
  split.
  { intros [p1 m1 t1] [p2 m2 t2] -> -> H1 H2. cbn in H1, H2. subst m2.
    destruct m1; [contradiction H1; reflexivity | reflexivity]. }
  intros [p1 m1 t1] [p2 m2 t2] -> -> [[H1 H2] | [H1 H2]]; cbn in H1, H2.
  - destruct m1; [contradiction H1; reflexivity |].
    destruct m2; [contradiction H2; reflexivity |].
    eexists. split; reflexivity.
  - subst m1 m2. eexists. split; reflexivity.
Qed.

Lemma mergeErrors_by_cases_witness :
  mergeErrors None (Some eofError) = Normal (Some eofError) /\
  mergeErrors (Some nopError) None = Normal (Some nopError) /\
  (exists merged,
     mergeErrors (Some nopError) (Some eofError) = Normal (Some merged) /\
     pe_messages merged = ["nop"; "unexpected eof"]).
Proof.
  split; [| split].
  - apply (proj1 (mergeErrors_by_cases None (Some eofError))). reflexivity.
  - apply (proj1 (proj2 (proj2
             (mergeErrors_by_cases (Some nopError) None))) nopError);
      [reflexivity | reflexivity | discriminate].
  - apply (proj2 (proj2 (proj2 (proj2
             (mergeErrors_by_cases (Some nopError) (Some eofError)))))
             nopError eofError); [reflexivity | reflexivity |].
    left. split; discriminate.
Defined.

(** Merging an existing error without messages with an absent new error
    reads [messages] of [undefined]. *)
Lemma mergeErrors_empty_with_absent (e1 : ParseError) :
  pe_messages e1 = [] -> mergeErrors (Some e1) None = Abrupt TypeError.
Proof. destruct e1 as [p1 m1 t1]. cbn. intros ->. reflexivity. Qed.

(** ** [or] when every alternative fails *)

Lemma orHelper_skips_failure_nonempty (p : Parser) (rest : list Parser)
    (s : ParserState) :
  failed (p s) = true -> rest <> [] ->
  orHelper (p :: rest) s = orHelper rest s.
Proof.
  intros Hp Hrest. destruct rest as [|q more]; [contradiction Hrest; reflexivity |].
  apply orHelper_skips_failure. exact Hp.
Qed.

(** C7, as stated, does not hold: [fail("a")] and [fail("b")] both fail on
    the start state, and [or(fail("a"), fail("b"))] returns the state of
    [fail("b")] alone; the message of the first alternative is not in the
    final error. *)
Lemma or_keeps_last_error_only :
  failed (failA (startState "")) = true /\
  failed (failB (startState "")) = true /\
  or [failA; failB] (startState "") =
    Normal (mkParserState JUndefined "" (newSourcePosition None None None)
              JUndefined
              (Some (mkParseError (Some (newSourcePosition None None None))
                                  ["b"] (Some "failure")))) /\
  ~ (exists s' e,
       or [failA; failB] (startState "") = Normal s' /\
       ps_error s' = Some e /\
       In "a" (pe_messages e) /\ In "b" (pe_messages e)).
Proof.
  split; [reflexivity | split; [reflexivity | split; [reflexivity |]]].
  intros (s' & e & Hrun & Herr & Ha & _).
  cbv in Hrun. injection Hrun as <-. cbn in Herr. injection Herr as <-.
  cbn in Ha. destruct Ha as [Ha | []]. discriminate Ha.
Qed.

(** C7, amended.  When every alternative of [or(p1, ..., pn)] fails on [s],
    the result is the state the last alternative [pn] returns on [s]: a
    failing state that carries the error of [pn] alone. *)
Theorem or_returns_last_failure (ps : list Parser) (q : Parser)
    (s : ParserState) :
  (forall p, In p (ps ++ [q]) -> failed (p s) = true) ->
  or (ps ++ [q]) s = q s /\ failed (or (ps ++ [q]) s) = true.
Proof.
  unfold or. induction ps as [|p ps IH]; intros Hall.
  - cbn [app]. rewrite orHelper_last.
    split; [reflexivity | apply Hall; left; reflexivity].
  - cbn [app]. rewrite orHelper_skips_failure_nonempty.
    + apply IH. intros p' Hin. apply Hall. right. exact Hin.
    + apply Hall. left. reflexivity.
    + destruct ps; discriminate.
Qed.

Lemma or_returns_last_failure_witness :
  or [failA; failB] (startState "") = failB (startState "") /\
  failed (or [failA; failB] (startState "")) = true.
Proof.
  apply (or_returns_last_failure [failA] failB (startState "")).
  intros p [<- | [<- | []]]; reflexivity.
Defined.

(** ** [parse] *)

Lemma parse_throws_without_options (parser : Parser) (str : string)
    (s' : ParserState) (err : ParseError) :
  parser (startState str) = Normal s' -> ps_error s' = Some err ->
  parse parser str None = Abrupt (Thrown err).
Proof.
  intros Hrun Herr. unfold parse. cbn [userState fileName throwOnError].
  fold (startState str). rewrite Hrun. cbn. rewrite Herr. reflexivity.
Qed.

Lemma parse_follows_throwOnError (parser : Parser) (str : string)
    (o : Options) (s' : ParserState) (err : ParseError) :
  parser (newParserState JUndefined str (userState o)
            (newSourcePosition (fileName o) None None) false None)
    = Normal s' ->
  ps_error s' = Some err ->
  parse parser str (Some o) =
    if truthy (throwOnError o) then Abrupt (Thrown err)
    else Normal (ResultError err).
Proof.
  intros Hrun Herr. unfold parse. rewrite Hrun. cbn. rewrite Herr.
  reflexivity.
Qed.

(** C8.  The claim is that [throwOnError] defaults to true, so that an
    options object without that property still makes a failed parse raise.
    The code applies the default only when no options object is given: with
    the options [{fileName: "f.txt"}] the property reads as [undefined],
    which is falsy, and [parse] returns the error object instead of
    raising it. *)
Theorem parse_returns_error_when_throwOnError_left_out :
  throwOnError fileNameOnly = JUndefined /\
  parse nopParser "" (Some fileNameOnly) =
    Normal (ResultError
              (mkParseError
                 (Some (mkSourcePosition (Some "f.txt") 1 1))
                 ["nop"] (Some "failure"))) /\
  (forall err, parse nopParser "" (Some fileNameOnly) <> Abrupt (Thrown err)).
Proof.
  split; [reflexivity | split; [reflexivity |]].
  intros err. discriminate.
Qed.

(** ** [value] with a function *)

(** C9.  When the argument of [value] is a function [f], the parser sets
    the value of the state to [f] applied to the old value, not to [f]
    itself; everything else is left as it was. *)
Theorem value_applies_function_argument funs (f : FunId) (s : ParserState) :
  exists s',
    value funs (JFun f) s = Normal s' /\
    ps_value s' = funs f (ps_value s) /\
    ps_restOfInput s' = ps_restOfInput s /\
    ps_position s' = ps_position s /\
    ps_userState s' = ps_userState s /\
    ps_error s' = ps_error s.
Proof.
  rewrite value_function. eexists. repeat split.
Qed.

(** With function [0] of [sampleFuns] as the payload, the value becomes
    ["called"], which is not the payload. *)
Lemma value_is_not_constant_on_functions :
  value sampleFuns (JFun 0%nat) (startState "") =
    Normal (mkParserState (JStr "called") "" (newSourcePosition None None None)
                          JUndefined None).
Proof. reflexivity. Qed.

(** ** Errors already present *)

(** What the primitives keep of an error already present.  On a state [s]
    whose error field holds [e]: [token], when input remains, consumes a
    unit and returns a state still carrying [e]; [value(v)] returns a state
    still carrying [e]; [fail(msg, type)] returns a state whose error has
    all the messages of [e], followed by its own; a state returned by
    [token] always has an error; and [eof], at the end of the input,
    returns a state still carrying [e]. *)
Lemma primitives_keep_existing_error funs (s : ParserState)
    (e : ParseError) :
  ps_error s = Some e ->
  (forall c rest, ps_restOfInput s = String c rest ->
     exists s', token s = Normal s' /\ ps_error s' = Some e /\
                ps_restOfInput s' = rest /\
                ps_value s' = JStr (String c EmptyString)) /\
  (forall v, exists s', value funs v s = Normal s' /\ ps_error s' = Some e) /\
  (forall msg type, exists s' merged,
     fail msg type s = Normal s' /\
     ps_error s' = Some merged /\
     pe_messages merged =
       (pe_messages e ++ [strOr msg "parser error"])%list) /\
  (forall s', token s = Normal s' -> ps_error s' <> None) /\
  (ps_restOfInput s = EmptyString ->
     exists s', eof s = Normal (RState s') /\ ps_error s' = Some e).
Proof.
  intros He.
  assert (Hfail : forall msg type, exists s' merged,
             fail msg type s = Normal s' /\
             ps_error s' = Some merged /\
             pe_messages merged =
               (pe_messages e ++ [strOr msg "parser error"])%list).
  { intros msg type. rewrite fail_merges, He.
    destruct e as [p1 m1 t1]. destruct m1; cbn; eexists _, _; repeat split. }
  split; [| split; [| split; [exact Hfail | split]]].
  - intros c rest Hin. rewrite (token_consumes s c rest Hin).
    eexists. repeat split. exact He.
  - intros v. destruct (value_keeps_error funs v s) as (s' & Hrun & Herr).
    exists s'. split; [exact Hrun | rewrite Herr; exact He].
  - intros s' Hrun. destruct (ps_restOfInput s) as [|c rest] eqn:Hin.
    + rewrite (token_at_end s Hin) in Hrun.
      destruct (Hfail (Some "unexpected eof") (Some "eof"))
        as (s1 & merged & Hrun1 & Herr1 & _).
      rewrite Hrun1 in Hrun. injection Hrun as <-. rewrite Herr1.
      discriminate.
    + rewrite (token_consumes s c rest Hin) in Hrun. injection Hrun as <-.
      cbn. rewrite He. discriminate.
  - intros Hin. rewrite (eof_at_end s Hin). eexists.
    split; [reflexivity | exact He].
Qed.

Lemma primitives_keep_existing_error_on_failedState :
  (exists s', token (failedState "a") = Normal s' /\
              ps_error s' = Some nopError /\ ps_restOfInput s' = "") /\
  (exists s', value sampleFuns (JStr "v") (failedState "a") = Normal s' /\
              ps_error s' = Some nopError) /\
  (exists s' merged, fail (Some "again") None (failedState "a") = Normal s' /\
                     ps_error s' = Some merged /\
                     pe_messages merged = ["nop"; "again"]).
Proof.
  pose proof (primitives_keep_existing_error sampleFuns (failedState "a")
                nopError eq_refl) as (Htok & Hval & Hfail & _ & _).
  split; [| split].
  - destruct (Htok "a"%char "" eq_refl) as (s' & Hrun & Herr & Hrest & _).
    exists s'. repeat split; assumption.
  - exact (Hval (JStr "v")).
  - destruct (Hfail (Some "again") None) as (s' & merged & Hrun & Herr & Hm).
    exists s', merged. repeat split; assumption.
Defined.

(** C10.  The claim is that no primitive discards an error already on the
    state.  [token], [value] and [fail] keep it, and so does [eof] at the
    end of the input ([primitives_keep_existing_error]).  On a non-empty
    input, however, [eof] returns the parser
    [fail("expected an eof", "expectation")] instead of a state: run on
    [failedState "a"], the state [fail("nop")] leaves on the input ["a"],
    it hands back a function, and reading [.error] of what it handed back
    gives [undefined].  The error is gone.  This is the defect of C5. *)
Theorem eof_before_end_drops_existing_error :
  nopParser (startState "a") = Normal (failedState "a") /\
  ps_error (failedState "a") = Some nopError /\
  (exists r, eof (failedState "a") = Normal r /\ returnedError r = None) /\
  (forall s', eof (failedState "a") <> Normal (RState s')).
Proof.
  split; [reflexivity | split; [reflexivity | split]].
  - eexists. split; reflexivity.
  - intros s'. discriminate.
Qed.

(** * Further properties of the engine *)

(** ** Failures stay *)

Lemma failed_inv (c : Completion ParserState) :
  failed c = true -> exists s', c = Normal s' /\ hasError s' = true.
Proof.
  destruct c as [s'|x]; [| discriminate]. intros H. exists s'. split;
    [reflexivity | exact H].
Qed.

Lemma succeeded_inv (c : Completion ParserState) :
  succeeded c = true -> exists s', c = Normal s' /\ ps_error s' = None.
Proof.
  destruct c as [s'|x]; [| discriminate]. unfold succeeded, hasError.
  destruct (ps_error s') eqn:He; [discriminate |].
  intros _. exists s'. split; [reflexivity | exact He].
Qed.

Lemma hasError_false (s : ParserState) :
  ps_error s = None -> hasError s = false.
Proof. unfold hasError. intros ->. reflexivity. Qed.

Lemma value_hasError funs (v : JsVal) (s : ParserState) :
  exists s', value funs v s = Normal s' /\ hasError s' = hasError s /\
             ps_restOfInput s' = ps_restOfInput s /\
             ps_position s' = ps_position s /\
             ps_userState s' = ps_userState s /\
             ps_error s' = ps_error s.
Proof.
  destruct (isFunction v) eqn:Hv.
  - destruct v; try discriminate Hv. rewrite value_function.
    eexists. repeat split.
  - rewrite (value_plain funs v s Hv). eexists. repeat split.
Qed.

Lemma value_keepsFailure funs (v : JsVal) : keepsFailure (value funs v).
Proof.
  intros s Hs. destruct (value_hasError funs v s) as (s' & -> & He & _).
  cbn. rewrite He. exact Hs.
Qed.

Lemma fail_keepsFailure (msg type : option string) :
  keepsFailure (fail msg type).
Proof. intros s _. apply fail_fails. Qed.

Lemma token_keepsFailure : keepsFailure token.
Proof.
  intros s Hs. destruct (ps_restOfInput s) as [|c rest] eqn:Hin.
  - rewrite (token_at_end s Hin). apply fail_fails.
  - rewrite (token_consumes s c rest Hin). exact Hs.
Qed.

Lemma bind_keepsFailure (p : Parser) (f : JsVal -> Parser) :
  keepsFailure p -> (forall v, keepsFailure (f v)) -> keepsFailure (bind p f).
Proof.
  intros Hp Hf s Hs. rewrite bind_unfold.
  destruct (failed_inv _ (Hp s Hs)) as (s1 & -> & H1).
  cbn [andThen]. apply Hf. exact H1.
Qed.

Lemma and_keepsFailure funs (more : list Parser) :
  forall p, keepsFailure p -> Forall keepsFailure more ->
            keepsFailure (and funs p more).
Proof.
  induction more as [|q more IH]; intros p Hp Hmore; cbn [and].
  - apply bind_keepsFailure; [exact Hp |]. intros v. apply value_keepsFailure.
  - apply bind_keepsFailure; [exact Hp |]. intros _.
    inversion Hmore as [|? ? Hq Hrest]; subst. apply IH; assumption.
Qed.

Lemma and_failed_first funs (p : Parser) (more : list Parser)
    (s : ParserState) :
  failed (p s) = true -> Forall keepsFailure more ->
  failed (and funs p more s) = true.
Proof.
  intros Hp Hmore. destruct (failed_inv _ Hp) as (s1 & Hrun & H1).
  destruct more as [|q more]; cbn [and]; rewrite bind_unfold, Hrun;
    cbn [andThen].
  - apply value_keepsFailure. exact H1.
  - inversion Hmore as [|? ? Hq Hrest]; subst.
    apply and_keepsFailure; assumption.
Qed.

(** X1.  [and] does not stop at a failure.  When [p] fails on [s],
    returning the state [s1], [and(p, q1, ..., qn)(s)] is [and(q1, ..., qn)]
    run on the failed state [s1] (and [value] of the value of [s1], run on
    [s1], when there is no [q]): every remaining parser is still run.  The
    whole sequence then fails, provided the parsers after [p] keep
    failures (as the primitives do). *)
Theorem and_fails_after_failure funs (p : Parser) (more : list Parser)
    (s s1 : ParserState) :
  p s = Normal s1 -> hasError s1 = true ->
  and funs p more s =
    match more with
    | q :: rest => and funs q rest s1
    | [] => value funs (ps_value s1) s1
    end /\
  (Forall keepsFailure more -> failed (and funs p more s) = true).
Proof.
  intros Hrun H1.
  assert (Hstep : and funs p more s =
                  match more with
                  | q :: rest => and funs q rest s1
                  | [] => value funs (ps_value s1) s1
                  end).
  { destruct more as [|q rest]; cbn [and]; rewrite bind_unfold, Hrun;
      reflexivity. }
  split; [exact Hstep |].
  intros Hmore. rewrite Hstep. destruct more as [|q rest].
  - apply value_keepsFailure. exact H1.
  - inversion Hmore as [|? ? Hq Hrest]; subst.
    apply and_keepsFailure; assumption.
Qed.

(** The first parser fails after consuming ["a"]; [token] still runs on the
    failed state and consumes ["b"], [value(null)] still sets the value,
    and the sequence fails. *)
Lemma and_fails_after_failure_witness :
  and sampleFuns consumeThenFail [token; value sampleFuns JNull]
      (startState "ab") =
    and sampleFuns token [value sampleFuns JNull]
      (mkParserState (JStr "a") "b" (mkSourcePosition None 1 2) JUndefined
         (Some (mkParseError (Some (mkSourcePosition None 1 2)) ["nope"]
                             (Some "failure")))) /\
  (exists s',
     and sampleFuns consumeThenFail [token; value sampleFuns JNull]
         (startState "ab") = Normal s' /\
     ps_restOfInput s' = "" /\ ps_value s' = JNull) /\
  failed (and sampleFuns consumeThenFail [token; value sampleFuns JNull]
            (startState "ab")) = true.
Proof.
  destruct (and_fails_after_failure sampleFuns consumeThenFail
              [token; value sampleFuns JNull] (startState "ab")
              (mkParserState (JStr "a") "b" (mkSourcePosition None 1 2)
                 JUndefined
                 (Some (mkParseError (Some (mkSourcePosition None 1 2))
                                     ["nope"] (Some "failure"))))
              eq_refl eq_refl) as [Hstep Hfails].
  split; [exact Hstep | split].
  - eexists. split; [reflexivity | split; reflexivity].
  - apply Hfails.
    repeat constructor; [apply token_keepsFailure | apply value_keepsFailure].
Defined.

(** X2.  A single parser given to [and] behaves as itself when the value
    it produces is not a function. *)
Theorem and_of_one_parser funs (p : Parser) (s s' : ParserState) :
  p s = Normal s' -> isFunction (ps_value s') = false ->
  and funs p [] s = p s.
Proof.
  intros Hrun Hv. cbn [and]. rewrite bind_unfold, Hrun. cbn [andThen].
  rewrite (value_plain funs _ _ Hv). destruct s'; reflexivity.
Qed.

Lemma and_of_one_parser_witness :
  and sampleFuns token [] (startState "ab") = token (startState "ab").
Proof.
  apply (and_of_one_parser sampleFuns token (startState "ab")
           (mkParserState (JStr "a") "b" (mkSourcePosition None 1 2)
                          JUndefined None)); reflexivity.
Defined.

(** ** [bind] and [fail] *)

(** X3.  [bind] is associative: binding a continuation to a bound parser is
    binding the composed continuation to the first parser. *)
Theorem bind_associative (p : Parser) (f g : JsVal -> Parser)
    (s : ParserState) :
  bind (bind p f) g s = bind p (fun v => bind (f v) g) s.
Proof.
  rewrite !bind_unfold. destruct (p s) as [s1|x]; reflexivity.
Qed.

Lemma fail_effect (msg type : option string)
    (s : ParserState) :
  exists s',
    fail msg type s = Normal s' /\
    hasError s' = true /\
    collected s' = (collected s ++ [strOr msg "parser error"])%list /\
    ps_value s' = ps_value s /\
    ps_restOfInput s' = ps_restOfInput s /\
    ps_position s' = ps_position s /\
    ps_userState s' = ps_userState s.
Proof.
  rewrite fail_merges. unfold collected.
  destruct (ps_error s) as [[p1 m1 t1]|]; cbn.
  - destruct m1; cbn; eexists; repeat split.
  - eexists; repeat split.
Qed.

(** X4.  [fail(msg, type)] never throws and consumes nothing: it returns
    the state it was given with only the error replaced, and the messages
    collected on the new state are those collected before followed by the
    one message of this failure. *)
Theorem fail_appends_its_message (msg type : option string)
    (s : ParserState) :
  exists s',
    fail msg type s = Normal s' /\
    hasError s' = true /\
    collected s' = (collected s ++ [strOr msg "parser error"])%list /\
    ps_value s' = ps_value s /\
    ps_restOfInput s' = ps_restOfInput s /\
    ps_position s' = ps_position s /\
    ps_userState s' = ps_userState s.
Proof.
  rewrite fail_merges. unfold collected.
  destruct (ps_error s) as [[p1 m1 t1]|]; cbn.
  - destruct m1; cbn; eexists; repeat split.
  - eexists; repeat split.
Qed.

(** ** Positions *)

(** X5.  [token] keeps positions valid and never moves back: from a
    position with line and column at least 1, the state it returns has line
    and column at least 1, and a line not before the old one. *)
Theorem token_keeps_position_valid (s s' : ParserState) :
  token s = Normal s' ->
  1 <= sp_line (ps_position s) -> 1 <= sp_column (ps_position s) ->
  1 <= sp_line (ps_position s') /\ 1 <= sp_column (ps_position s') /\
  sp_line (ps_position s) <= sp_line (ps_position s').
Proof.
  intros Hrun Hl Hc. destruct (ps_restOfInput s) as [|c rest] eqn:Hin.
  - rewrite (token_at_end s Hin) in Hrun.
    destruct (fail_effect (Some "unexpected eof") (Some "eof") s)
      as (s1 & Hrun1 & _ & _ & _ & _ & Hpos & _).
    rewrite Hrun1 in Hrun. injection Hrun as <-. rewrite Hpos. lia.
  - rewrite (token_consumes s c rest Hin) in Hrun. injection Hrun as <-.
    cbn. destruct (Ascii.eqb c newline); cbn; lia.
Qed.

Lemma token_keeps_position_valid_witness :
  1 <= sp_line (ps_position (mkParserState (JStr "a") "b"
                               (mkSourcePosition None 1 2) JUndefined None)) /\
  1 <= sp_column (ps_position (mkParserState (JStr "a") "b"
                                 (mkSourcePosition None 1 2) JUndefined None)).
Proof.
  destruct (token_keeps_position_valid (startState "ab")
              (mkParserState (JStr "a") "b" (mkSourcePosition None 1 2)
                             JUndefined None) eq_refl)
    as (Hl & Hc & _); [cbn; lia | cbn; lia |].
  split; assumption.
Defined.

(** ** Alternatives *)

Lemma orHelper_two_alternatives (p1 p2 : Parser)
    (s : ParserState) :
  failed (p1 s) = true -> orHelper [p1; p2] s = p2 s.
Proof.
  intros Hp. rewrite (orHelper_skips_failure p1 p2 [] s Hp).
  apply orHelper_last.
Qed.

Lemma orHelper_first_success (before after : list Parser) (p : Parser)
    (s : ParserState) :
  (forall q, In q before -> failed (q s) = true) ->
  succeeded (p s) = true ->
  or (before ++ p :: after) s = p s.
Proof.
  unfold or. intros Hbefore Hp.
  induction before as [|q before IH]; cbn [app].
  - destruct (succeeded_inv _ Hp) as (s' & Hrun & He).
    cbn [orHelper]. rewrite Hrun. cbn [andThen]. rewrite He. reflexivity.
  - rewrite orHelper_skips_failure_nonempty.
    + apply IH. intros q' Hin. apply Hbefore. right. exact Hin.
    + apply Hbefore. left. reflexivity.
    + destruct before; discriminate.
Qed.

(** X6.  [or] returns the result of the first alternative that succeeds,
    run on the original state: the alternatives before it, which fail, leave
    no trace, and those after it are not run. *)
Theorem or_returns_first_success (before after : list Parser) (p : Parser)
    (s : ParserState) :
  (forall q, In q before -> failed (q s) = true) ->
  succeeded (p s) = true ->
  or (before ++ p :: after) s = p s.
Proof.
  unfold or. intros Hbefore Hp.
  induction before as [|q before IH]; cbn [app].
  - destruct (succeeded_inv _ Hp) as (s' & Hrun & He).
    cbn [orHelper]. rewrite Hrun. cbn [andThen]. rewrite He. reflexivity.
  - rewrite orHelper_skips_failure_nonempty.
    + apply IH. intros q' Hin. apply Hbefore. right. exact Hin.
    + apply Hbefore. left. reflexivity.
    + destruct before; discriminate.
Qed.

Lemma or_returns_first_success_witness :
  or ([consumeThenFail; nopParser] ++ token :: [failA]) (startState "ab") =
  token (startState "ab").
Proof.
  apply (or_returns_first_success [consumeThenFail; nopParser] [failA] token
           (startState "ab")).
  - intros q [<- | [<- | []]]; reflexivity.
  - reflexivity.
Defined.

(** X7.  When [parser] fails on [s], [maybe(parser)(s)] is [s] with the
    value [undefined]: whatever the failed attempt consumed or reported is
    dropped, and the error field is that of [s].  When [parser] succeeds on
    [s], [maybe(parser)(s)] is [parser(s)]. *)
Theorem maybe_recovers_original_state funs (parser : Parser)
    (s : ParserState) :
  (failed (parser s) = true ->
   maybe funs parser s =
     Normal (mkParserState JUndefined (ps_restOfInput s) (ps_position s)
                           (ps_userState s) (ps_error s))) /\
  (succeeded (parser s) = true -> maybe funs parser s = parser s).
Proof.
  unfold maybe. split; intros Hp.
  - unfold or. rewrite (orHelper_two_alternatives parser _ s Hp).
    apply value_plain. reflexivity.
  - apply (orHelper_first_success [] [value funs JUndefined] parser s);
      [intros q [] | exact Hp].
Qed.

Lemma maybe_recovers_original_state_witness :
  maybe sampleFuns consumeThenFail (startState "ab") =
    Normal (mkParserState JUndefined "ab" (mkSourcePosition None 1 1)
                          JUndefined None) /\
  maybe sampleFuns token (startState "ab") = token (startState "ab").
Proof.
  split.
  - apply (proj1 (maybe_recovers_original_state sampleFuns consumeThenFail
                    (startState "ab"))). reflexivity.
  - apply (proj2 (maybe_recovers_original_state sampleFuns token
                    (startState "ab"))). reflexivity.
Defined.

(** ** Negative lookahead *)

Lemma not_effect funs (parser : Parser) (s r : ParserState) :
  parser s = Normal r ->
  exists s',
    not funs parser s = Normal s' /\
    ps_restOfInput s' = ps_restOfInput s /\
    ps_position s' = ps_position s /\
    ps_userState s' = ps_userState s /\
    (hasError r = true ->
       ps_value s' = JBool true /\ ps_error s' = ps_error s) /\
    (hasError r = false ->
       ps_value s' = ps_value s /\ hasError s' = true /\
       collected s' = (collected s ++ ["expected parser to fail"])%list).
Proof.
  intros Hrun. unfold not. rewrite Hrun. cbn [andThen].
  destruct (hasError r) eqn:Hr.
  - rewrite value_plain by reflexivity. eexists. cbn.
    repeat split; discriminate.
  - destruct (fail_effect (Some "expected parser to fail")
                None s)
      as (s' & Hfail & He & Hmsg & Hval & Hrest & Hpos & Huser).
    exists s'. repeat split; try assumption; discriminate.
Qed.

(** X8.  [not(parser)] never consumes: whenever [parser] returns a state,
    [not(parser)(s)] returns [s] with at most its value and its error
    changed.  If [parser] failed, the value is [true] and the error field
    is that of [s]; if [parser] did not fail, the value is that of [s] and
    the state carries an error whose last message is
    ["expected parser to fail"]. *)
Theorem not_never_consumes funs (parser : Parser) (s r : ParserState) :
  parser s = Normal r ->
  exists s',
    not funs parser s = Normal s' /\
    ps_restOfInput s' = ps_restOfInput s /\
    ps_position s' = ps_position s /\
    ps_userState s' = ps_userState s /\
    (hasError r = true ->
       ps_value s' = JBool true /\ ps_error s' = ps_error s) /\
    (hasError r = false ->
       ps_value s' = ps_value s /\ hasError s' = true /\
       collected s' = (collected s ++ ["expected parser to fail"])%list).
Proof.
  intros Hrun. unfold not. rewrite Hrun. cbn [andThen].
  destruct (hasError r) eqn:Hr.
  - rewrite value_plain by reflexivity. eexists. cbn.
    repeat split; discriminate.
  - destruct (fail_effect (Some "expected parser to fail")
                None s)
      as (s' & Hfail & He & Hmsg & Hval & Hrest & Hpos & Huser).
    exists s'. repeat split; try assumption; discriminate.
Qed.

Lemma not_never_consumes_witness :
  exists s',
    not sampleFuns token (startState "ab") = Normal s' /\
    ps_restOfInput s' = "ab" /\ hasError s' = true.
Proof.
  destruct (not_never_consumes sampleFuns token (startState "ab")
              (mkParserState (JStr "a") "b" (mkSourcePosition None 1 2)
                             JUndefined None) eq_refl)
    as (s' & Hrun & Hrest & _ & _ & _ & Hok).
  exists s'. repeat split; [exact Hrun | exact Hrest |].
  apply Hok. reflexivity.
Defined.

(** X9.  On a state without an error, negating twice gives back the
    outcome of the parser: [not(not(parser))] succeeds exactly when
    [parser] does. *)
Theorem not_not_succeeds_as_parser funs (parser : Parser)
    (s r : ParserState) :
  ps_error s = None -> parser s = Normal r ->
  succeeded (not funs (not funs parser) s) = succeeded (parser s).
Proof.
  intros He Hrun.
  destruct (not_effect funs parser s r Hrun)
    as (s1 & Hnot & _ & _ & _ & Hfailed & Hok).
  destruct (not_effect funs (not funs parser) s s1 Hnot)
    as (s2 & Hnot2 & _ & _ & _ & Hfailed2 & Hok2).
  rewrite Hnot2, Hrun. cbn. destruct (hasError r) eqn:Hr.
  - destruct (Hfailed eq_refl) as (_ & He1).
    assert (H1 : hasError s1 = false)
      by (apply hasError_false; rewrite He1; exact He).
    destruct (Hok2 H1) as (_ & H2 & _). rewrite H2. reflexivity.
  - destruct (Hok eq_refl) as (_ & H1 & _).
    destruct (Hfailed2 H1) as (_ & He2).
    rewrite (hasError_false s2) by (rewrite He2; exact He). reflexivity.
Qed.

Lemma not_not_succeeds_as_parser_witness :
  succeeded (not sampleFuns (not sampleFuns token) (startState "ab")) =
  succeeded (token (startState "ab")).
Proof.
  apply (not_not_succeeds_as_parser sampleFuns token (startState "ab")
           (mkParserState (JStr "a") "b" (mkSourcePosition None 1 2)
                          JUndefined None)); reflexivity.
Defined.

(** X10.  [unless(parser, q1, ..., qn)] fails whenever [parser] does not
    fail, provided the parsers after it keep failures. *)
Theorem unless_fails_when_parser_succeeds funs (parser : Parser)
    (more : list Parser) (s r : ParserState) :
  parser s = Normal r -> hasError r = false ->
  Forall keepsFailure more ->
  failed (unless funs parser more s) = true.
Proof.
  intros Hrun Hr Hmore. unfold unless, andApply.
  apply and_failed_first; [| exact Hmore].
  destruct (not_effect funs parser s r Hrun)
    as (s' & Hnot & _ & _ & _ & _ & Hok).
  rewrite Hnot. cbn. apply (Hok Hr).
Qed.

Lemma unless_fails_when_parser_succeeds_witness :
  failed (unless sampleFuns (value sampleFuns (JStr "success"))
            [value sampleFuns (JStr "fail")] (startState "")) = true.
Proof.
  apply (unless_fails_when_parser_succeeds sampleFuns
           (value sampleFuns (JStr "success"))
           [value sampleFuns (JStr "fail")] (startState "")
           (mkParserState (JStr "success") "" (mkSourcePosition None 1 1)
                          JUndefined None));
    [reflexivity | reflexivity |].
  repeat constructor. apply value_keepsFailure.
Defined.

(** ** [followedBy] and [sequence] *)

(** X11.  [followedBy(parser, q1, ..., qn)] runs [parser], then the
    others, and puts back the value [parser] produced (when that value is
    not a function); everything else is as the others left it.  With no
    parser after the first one it throws a [TypeError] once [parser] has
    returned. *)
Theorem followedBy_keeps_first_value funs (parser q : Parser)
    (more : list Parser) (s s1 s2 : ParserState) :
  parser s = Normal s1 ->
  followedBy funs parser [] s = Abrupt TypeError /\
  (and funs q more s1 = Normal s2 -> isFunction (ps_value s1) = false ->
   followedBy funs parser (q :: more) s =
     Normal (mkParserState (ps_value s1) (ps_restOfInput s2)
                           (ps_position s2) (ps_userState s2)
                           (ps_error s2))).
Proof.
  intros Hrun. unfold followedBy. rewrite !bind_unfold, Hrun.
  cbn [andThen]. split; [reflexivity |].
  intros Hand Hv. rewrite bind_unfold. cbn [andApply]. rewrite Hand.
  cbn [andThen]. apply value_plain. exact Hv.
Qed.

Lemma followedBy_keeps_first_value_witness :
  followedBy sampleFuns token [] (startState "ab") = Abrupt TypeError /\
  followedBy sampleFuns token [token] (startState "ab") =
    Normal (mkParserState (JStr "a") "" (mkSourcePosition None 1 3)
                          JUndefined None).
Proof.
  pose proof (followedBy_keeps_first_value sampleFuns token token []
                (startState "ab")
                (mkParserState (JStr "a") "b" (mkSourcePosition None 1 2)
                               JUndefined None)
                (mkParserState (JStr "b") "" (mkSourcePosition None 1 3)
                               JUndefined None)
                eq_refl) as [Hnone Hsome].
  split; [exact Hnone | apply Hsome; reflexivity].
Defined.

(** X12.  A [sequence] of one step is the [bind] that stops at a failure:
    when the step fails, the failed state is the result and the rest of the
    callback is not run; when it does not fail, the result is that of
    [bind] with the rest of the callback as continuation. *)
Theorem sequence_stops_where_bind_goes_on (parser : Parser)
    (f : JsVal -> Parser) (s s1 : ParserState) :
  parser s = Normal s1 ->
  sequence (Step parser (fun x => Return (f x))) s =
    if hasError s1 then Normal s1 else bind parser f s.
Proof.
  intros Hrun. unfold sequence. cbn [runBuilder]. rewrite bind_unfold, Hrun.
  cbn [andThen]. destruct (hasError s1); reflexivity.
Qed.

Lemma sequence_stops_where_bind_goes_on_witness :
  sequence (Step nopParser (fun x => Return (seenContinuation x)))
           (startState "") = Normal (failedState "") /\
  bind nopParser seenContinuation (startState "") <>
    Normal (failedState "").
Proof.
  split.
  - apply (sequence_stops_where_bind_goes_on nopParser seenContinuation
             (startState "") (failedState "")). reflexivity.
  - discriminate.
Defined.

(** ** [satisfies], [character] and [string] *)

Lemma satisfies_on_unit funs (predicate : JsVal -> bool) (s : ParserState)
    (c : ascii) (rest : string) :
  ps_restOfInput s = String c rest ->
  exists s1,
    token s = Normal s1 /\
    ps_value s1 = JStr (String c EmptyString) /\
    ps_restOfInput s1 = rest /\
    ps_error s1 = ps_error s /\
    ps_userState s1 = ps_userState s /\
    sp_line (ps_position s1) =
      sp_line (ps_position s) + (if Ascii.eqb c newline then 1 else 0) /\
    satisfies funs predicate s =
      if predicate (JStr (String c EmptyString)) then Normal s1
      else fail (Some "token does not match predicate") None s1.
Proof.
  intros Hin. unfold satisfies. rewrite bind_unfold.
  rewrite (token_consumes s c rest Hin). eexists.
  split; [reflexivity |]. cbn [andThen ps_value ps_restOfInput ps_error
                               ps_userState ps_position].
  do 4 (split; [reflexivity |]).
  split; [destruct (Ascii.eqb c newline); cbn; lia |].
  destruct (predicate (JStr (String c EmptyString))); [| reflexivity].
  rewrite value_plain by reflexivity. reflexivity.
Qed.

Lemma satisfies_at_end funs (predicate : JsVal -> bool) (s : ParserState) :
  ps_restOfInput s = EmptyString ->
  exists s',
    satisfies funs predicate s = Normal s' /\ hasError s' = true /\
    ps_restOfInput s' = EmptyString.
Proof.
  intros Hin. unfold satisfies. rewrite bind_unfold, (token_at_end s Hin).
  destruct (fail_effect (Some "unexpected eof") (Some "eof") s)
    as (s1 & -> & He1 & _ & _ & Hrest1 & _).
  cbn [andThen]. destruct (predicate (ps_value s1)).
  - destruct (value_hasError funs (ps_value s1) s1)
      as (s' & -> & He & Hrest & _).
    exists s'. split; [reflexivity |].
    split; [rewrite He; exact He1 | rewrite Hrest, Hrest1; exact Hin].
  - destruct (fail_effect (Some "token does not match predicate") None s1)
      as (s' & -> & He & _ & _ & Hrest & _).
    exists s'. split; [reflexivity |].
    split; [exact He | rewrite Hrest, Hrest1; exact Hin].
Qed.

(** X13.  At the end of the input [satisfies(predicate)] fails whatever the
    predicate answers (the predicate is still called, on the value the
    state already had), and the input stays empty. *)
Theorem satisfies_fails_at_end funs (predicate : JsVal -> bool)
    (s : ParserState) :
  ps_restOfInput s = EmptyString ->
  failed (satisfies funs predicate s) = true.
Proof.
  intros Hin.
  destruct (satisfies_at_end funs predicate s Hin) as (s' & -> & He & _).
  exact He.
Qed.

Lemma satisfies_fails_at_end_witness :
  failed (satisfies sampleFuns (fun _ => true) (startState "")) = true.
Proof.
  apply (satisfies_fails_at_end sampleFuns (fun _ => true) (startState "")).
  reflexivity.
Defined.

(** X14.  On a non-empty input [satisfies(predicate)] consumes the first
    unit in both cases: when the predicate accepts the unit the result is
    that of [token]; when it rejects the unit the result is a failing state
    whose remaining input no longer has the unit, with the message
    ["token does not match predicate"] added to the collected ones. *)
Theorem satisfies_consumes_the_unit funs (predicate : JsVal -> bool)
    (s : ParserState) (c : ascii) (rest : string) :
  ps_restOfInput s = String c rest ->
  (predicate (JStr (String c EmptyString)) = true ->
   satisfies funs predicate s = token s) /\
  (predicate (JStr (String c EmptyString)) = false ->
   exists s',
     satisfies funs predicate s = Normal s' /\
     hasError s' = true /\
     ps_restOfInput s' = rest /\
     ps_value s' = JStr (String c EmptyString) /\
     collected s' =
       (collected s ++ ["token does not match predicate"])%list).
Proof.
  intros Hin.
  destruct (satisfies_on_unit funs predicate s c rest Hin)
    as (s1 & Htok & Hval & Hrest & He & _ & _ & Hsat).
  split; intros Hp; rewrite Hp in Hsat.
  - rewrite Hsat, Htok. reflexivity.
  - destruct (fail_effect (Some "token does not match predicate") None s1)
      as (s' & Hfail & He' & Hmsg & Hval' & Hrest' & _).
    exists s'. rewrite Hsat. split; [exact Hfail |].
    split; [exact He' |]. split; [rewrite Hrest'; exact Hrest |].
    split; [rewrite Hval'; exact Hval |].
    rewrite Hmsg. unfold collected. rewrite He. reflexivity.
Qed.

Lemma satisfies_consumes_the_unit_witness :
  satisfies sampleFuns (fun _ => true) (startState "ab") =
    token (startState "ab") /\
  (exists s',
     satisfies sampleFuns (fun _ => false) (startState "ab") = Normal s' /\
     hasError s' = true /\ ps_restOfInput s' = "b").
Proof.
  split.
  - apply (proj1 (satisfies_consumes_the_unit sampleFuns (fun _ => true)
                    (startState "ab") "a"%char "b" eq_refl)). reflexivity.
  - destruct (proj2 (satisfies_consumes_the_unit sampleFuns (fun _ => false)
                       (startState "ab") "a"%char "b" eq_refl) eq_refl)
      as (s' & Hrun & He & Hrest & _).
    exists s'. repeat split; assumption.
Defined.

Lemma failed_not_succeeded (c : Completion ParserState) :
  failed c = true -> succeeded c = false.
Proof.
  destruct c as [s'|x]; [| reflexivity]. cbn. intros ->. reflexivity.
Qed.

Lemma character_on_unit funs (x : string) (s : ParserState) (c : ascii)
    (rest : string) :
  ps_restOfInput s = String c rest ->
  exists s1,
    token s = Normal s1 /\
    ps_restOfInput s1 = rest /\
    ps_error s1 = ps_error s /\
    ps_userState s1 = ps_userState s /\
    sp_line (ps_position s1) =
      sp_line (ps_position s) + (if Ascii.eqb c newline then 1 else 0) /\
    character funs x s =
      if String.eqb x (String c EmptyString) then Normal s1
      else fail (Some "token does not match predicate") None s1.
Proof.
  intros Hin. unfold character.
  destruct (satisfies_on_unit funs (fun y => strictEqualsString x y)
              s c rest Hin)
    as (s1 & Htok & _ & Hrest & He & Hu & Hl & Hsat).
  exists s1. repeat split; assumption.
Qed.

(** X15.  On a state without an error whose input starts with the unit
    [c], [character(x)] succeeds exactly when [x] is the one-unit string of
    [c]; in particular a string of several units never matches. *)
Theorem character_succeeds_on_its_unit funs (x : string) (s : ParserState)
    (c : ascii) (rest : string) :
  ps_error s = None -> ps_restOfInput s = String c rest ->
  succeeded (character funs x s) = String.eqb x (String c EmptyString).
Proof.
  intros He Hin.
  destruct (character_on_unit funs x s c rest Hin)
    as (s1 & _ & _ & He1 & _ & _ & Hchar).
  rewrite Hchar. destruct (String.eqb x (String c EmptyString)).
  - cbn. rewrite (hasError_false s1) by (rewrite He1; exact He).
    reflexivity.
  - apply failed_not_succeeded, fail_fails.
Qed.

Lemma character_succeeds_on_its_unit_witness :
  succeeded (character sampleFuns "a" (startState "ab")) = true /\
  succeeded (character sampleFuns "ab" (startState "ab")) = false.
Proof.
  split.
  - apply (character_succeeds_on_its_unit sampleFuns "a" (startState "ab")
             "a"%char "b"); reflexivity.
  - apply (character_succeeds_on_its_unit sampleFuns "ab" (startState "ab")
             "a"%char "b"); reflexivity.
Defined.

Lemma string_step funs (c : ascii) (str : string) (s : ParserState) :
  Strings.string funs (String c str) s =
  (s1 <- character funs (String c EmptyString) s ;;
   if hasError s1 then Normal s1
   else s2 <- Strings.string funs str s1 ;;
        if hasError s2 then Normal s2
        else value funs (JStr (String c str)) s2).
Proof. reflexivity. Qed.

(** X16.  On a state without an error whose input is [str] followed by
    [rest], [string(str)] succeeds with the value [str], leaves [rest] as
    the remaining input, keeps the user state, and moves the line forward
    by the number of newlines of [str]. *)
Theorem string_consumes_its_text funs (str : string) :
  forall (s : ParserState) (rest : string),
    ps_error s = None -> ps_restOfInput s = (str ++ rest)%string ->
    exists s',
      Strings.string funs str s = Normal s' /\
      ps_value s' = JStr str /\
      ps_restOfInput s' = rest /\
      ps_error s' = None /\
      ps_userState s' = ps_userState s /\
      sp_line (ps_position s') = sp_line (ps_position s) + newlines str.
Proof.
  induction str as [|c str IH]; intros s rest He Hin.
  - cbn [Strings.string]. rewrite value_plain by reflexivity.
    eexists. split; [reflexivity |]. cbn.
    repeat split; [exact Hin | exact He | lia].
  - rewrite string_step.
    destruct (character_on_unit funs (String c EmptyString) s c
                (str ++ rest)%string Hin)
      as (s1 & _ & Hrest1 & He1 & Hu1 & Hl1 & ->).
    rewrite String.eqb_refl. cbn [andThen].
    rewrite He in He1. rewrite (hasError_false s1 He1).
    destruct (IH s1 rest He1 Hrest1)
      as (s2 & -> & _ & Hrest2 & He2 & Hu2 & Hl2).
    cbn [andThen]. rewrite (hasError_false s2 He2).
    rewrite value_plain by reflexivity.
    eexists. split; [reflexivity |]. cbn.
    repeat split; [exact Hrest2 | exact He2 | congruence |].
    rewrite Hl2, Hl1. lia.
Qed.

Lemma string_consumes_its_text_witness :
  exists s',
    Strings.string sampleFuns "foo" (startState "foobarbaz") = Normal s' /\
    ps_value s' = JStr "foo" /\ ps_restOfInput s' = "barbaz".
Proof.
  destruct (string_consumes_its_text sampleFuns "foo"
              (startState "foobarbaz") "barbaz" eq_refl eq_refl)
    as (s' & Hrun & Hval & Hrest & _).
  exists s'. repeat split; assumption.
Defined.

(** X17.  On a state without an error, [string(str)] succeeds exactly when
    the remaining input starts with [str]. *)
Theorem string_succeeds_on_prefix funs (str : string) :
  forall s : ParserState,
    ps_error s = None ->
    succeeded (Strings.string funs str s) =
    String.prefix str (ps_restOfInput s).
Proof.
  induction str as [|c str IH]; intros s He.
  - cbn [Strings.string]. rewrite value_plain by reflexivity.
    cbn. unfold hasError. cbn. rewrite He.
    destruct (ps_restOfInput s); reflexivity.
  - rewrite string_step.
    destruct (ps_restOfInput s) as [|c' rest] eqn:Hin.
    + unfold character.
      destruct (satisfies_at_end funs
                  (fun y => strictEqualsString (String c EmptyString) y)
                  s Hin) as (s1 & -> & He1 & _).
      cbn [andThen]. rewrite He1. cbn. rewrite He1. reflexivity.
    + destruct (character_on_unit funs (String c EmptyString) s c' rest Hin)
        as (s1 & _ & Hrest1 & He1 & _ & _ & ->).
      cbn [String.prefix]. destruct (ascii_dec c c') as [<- | Hne].
      * rewrite String.eqb_refl. cbn [andThen].
        rewrite He in He1. rewrite (hasError_false s1 He1).
        rewrite <- Hrest1, <- (IH s1 He1).
        destruct (Strings.string funs str s1) as [s2|x]; [| reflexivity].
        cbn [andThen]. destruct (hasError s2) eqn:H2.
        -- cbn. rewrite H2. reflexivity.
        -- rewrite value_plain by reflexivity. cbn. unfold hasError in *.
           cbn. destruct (ps_error s2); [discriminate H2 | reflexivity].
      * assert (Hneq : String.eqb (String c EmptyString)
                                  (String c' EmptyString) = false).
        { apply String.eqb_neq. intros Heq. apply Hne.
          injection Heq as ->. reflexivity. }
        rewrite Hneq.
        destruct (fail_effect (Some "token does not match predicate")
                    None s1) as (s2 & -> & H2 & _).
        cbn [andThen]. rewrite H2. cbn. rewrite H2. reflexivity.
Qed.

Lemma string_succeeds_on_prefix_witness :
  succeeded (Strings.string sampleFuns "bar" (startState "foobarbaz")) =
  false.
Proof.
  apply (string_succeeds_on_prefix sampleFuns "bar"
           (startState "foobarbaz")). reflexivity.
Defined.

(** ** [zeroOrMore] *)

(** X18.  When [parser] fails at once, [zeroOrMore(parser)] returns the
    state it was given with an empty array as value: nothing of the failed
    attempt (input consumed, error) is kept. *)
Theorem zeroOrMore_without_match funs (fuel : nat) (parser : Parser)
    (s : ParserState) :
  failed (parser s) = true ->
  zeroOrMore funs (S fuel) parser s =
    Some (Normal (mkParserState (JArr []) (ps_restOfInput s) (ps_position s)
                                (ps_userState s) (ps_error s))).
Proof.
  intros Hp. destruct (failed_inv _ Hp) as (s1 & Hrun & H1).
  unfold zeroOrMore. cbn [zeroOrMoreLoop]. rewrite Hrun, H1.
  rewrite value_plain by reflexivity. reflexivity.
Qed.

Lemma zeroOrMore_without_match_witness :
  zeroOrMore sampleFuns 1 consumeThenFail (startState "ab") =
    Some (Normal (mkParserState (JArr []) "ab" (mkSourcePosition None 1 1)
                                JUndefined None)).
Proof.
  apply (zeroOrMore_without_match sampleFuns 0 consumeThenFail
           (startState "ab")). reflexivity.
Defined.

Lemma zeroOrMoreLoop_token funs (w : string) :
  forall (s : ParserState) (res : list JsVal),
    ps_error s = None -> ps_restOfInput s = w ->
    exists s',
      zeroOrMoreLoop funs (S (String.length w)) token s s res =
        Some (Normal s') /\
      ps_value s' = JArr (res ++ units w) /\
      ps_restOfInput s' = EmptyString /\
      ps_error s' = None /\
      ps_userState s' = ps_userState s /\
      sp_line (ps_position s') = sp_line (ps_position s) + newlines w.
Proof.
  induction w as [|c w IH]; intros s res He Hin.
  - cbn [String.length zeroOrMoreLoop]. rewrite (token_at_end s Hin).
    destruct (fail_effect (Some "unexpected eof") (Some "eof") s)
      as (s1 & -> & H1 & _).
    rewrite H1, value_plain by reflexivity.
    eexists. split; [reflexivity |]. cbn. rewrite app_nil_r.
    repeat split; [exact Hin | exact He | lia].
  - cbn [String.length]. cbn [zeroOrMoreLoop].
    rewrite (token_consumes s c w Hin).
    match goal with
    | |- context [hasError ?st] =>
        replace (hasError st) with false
          by (unfold hasError; cbn; rewrite He; reflexivity);
        destruct (IH st (res ++ [ps_value st])%list He eq_refl)
          as (s' & Hrun & Hval & Hrest & He' & Hu & Hl)
    end.
    exists s'. split; [exact Hrun |].
    cbn in Hval, Hu, Hl |- *.
    split; [rewrite Hval, <- app_assoc; reflexivity |].
    repeat split; try assumption.
    rewrite Hl. destruct (Ascii.eqb c newline); cbn [sp_line]; lia.
Qed.

(** X19.  On a state without an error, [zeroOrMore(token())] consumes the
    whole input: evaluating the loop condition once per unit and once more
    is enough for it to return, with the array of all units as value, an
    empty remaining input, no error, and the line moved forward by the
    number of newlines consumed. *)
Theorem zeroOrMore_token_consumes_everything funs (s : ParserState) :
  ps_error s = None ->
  exists s',
    zeroOrMore funs (S (String.length (ps_restOfInput s))) token s =
      Some (Normal s') /\
    ps_value s' = JArr (units (ps_restOfInput s)) /\
    ps_restOfInput s' = EmptyString /\
    ps_error s' = None /\
    ps_userState s' = ps_userState s /\
    sp_line (ps_position s') =
      sp_line (ps_position s) + newlines (ps_restOfInput s).
Proof.
  intros He. unfold zeroOrMore.
  destruct (zeroOrMoreLoop_token funs (ps_restOfInput s) s [] He eq_refl)
    as (s' & Hrun & Hval & Hrest & He' & Hu & Hl).
  exists s'. repeat split; assumption.
Qed.

Lemma zeroOrMore_token_consumes_everything_witness :
  exists s',
    zeroOrMore sampleFuns 4 token (startState "abc") = Some (Normal s') /\
    ps_value s' = JArr [JStr "a"; JStr "b"; JStr "c"] /\
    ps_restOfInput s' = "".
Proof.
  destruct (zeroOrMore_token_consumes_everything sampleFuns
              (startState "abc") eq_refl)
    as (s' & Hrun & Hval & Hrest & _).
  exists s'. repeat split; assumption.
Defined.

Lemma zeroOrMoreLoop_goes_on funs (parser : Parser) :
  (forall s, ps_error s = None -> succeeded (parser s) = true) ->
  forall (fuel : nat) (prev s : ParserState) (res : list JsVal),
    ps_error s = None -> zeroOrMoreLoop funs fuel parser prev s res = None.
Proof.
  intros Hp. induction fuel as [|fuel IH]; intros prev s res He;
    [reflexivity |].
  cbn [zeroOrMoreLoop].
  destruct (succeeded_inv _ (Hp s He)) as (s1 & -> & He1).
  rewrite (hasError_false s1 He1). apply IH. exact He1.
Qed.

(** X20.  [zeroOrMore] does not return on a parser that cannot fail: if
    [parser] succeeds on every state without an error, then from such a
    state the loop is still running after any number of evaluations of its
    condition. *)
Theorem zeroOrMore_goes_on_forever funs (parser : Parser) (fuel : nat)
    (s : ParserState) :
  (forall s0, ps_error s0 = None -> succeeded (parser s0) = true) ->
  ps_error s = None ->
  zeroOrMore funs fuel parser s = None.
Proof.
  intros Hp He. unfold zeroOrMore.
  apply zeroOrMoreLoop_goes_on; assumption.
Qed.

Lemma zeroOrMore_goes_on_forever_witness :
  zeroOrMore sampleFuns 1000 (value sampleFuns (JNum 1)) (startState "abc")
  = None.
Proof.
  apply (zeroOrMore_goes_on_forever sampleFuns (value sampleFuns (JNum 1))
           1000 (startState "abc")); [| reflexivity].
  intros s0 He0. rewrite value_plain by reflexivity.
  cbn. unfold hasError. cbn. rewrite He0. reflexivity.
Defined.

(** ** [parse] on a parser that succeeds *)

(** X21.  When the parser leaves no error on the state [parse] starts it
    on, [parse] returns the value of the final state and throws nothing,
    whatever the options say about errors. *)
Theorem parse_returns_value_on_success (parser : Parser) (str : string)
    (opts : option Options) (s' : ParserState) :
  parser (newParserState JUndefined str
            match opts with Some o => userState o | None => JUndefined end
            (newSourcePosition
               match opts with Some o => fileName o | None => None end
               None None)
            false None) = Normal s' ->
  ps_error s' = None ->
  parse parser str opts = Normal (ResultValue (ps_value s')).
Proof.
  intros Hrun He. unfold parse. destruct opts as [o|]; cbn in Hrun |- *;
    rewrite Hrun; cbn; rewrite He; reflexivity.
Qed.

Lemma parse_returns_value_on_success_witness :
  parse (Strings.string sampleFuns "foo") "foobarbaz" (Some fileNameOnly) =
    Normal (ResultValue (JStr "foo")).
Proof.
  apply (parse_returns_value_on_success (Strings.string sampleFuns "foo")
           "foobarbaz" (Some fileNameOnly)
           (mkParserState (JStr "foo") "barbaz"
              (mkSourcePosition (Some "f.txt") 1 4) JUndefined None));
    reflexivity.
Defined.

End Mona.
